(** * London tube fare card: a shallow embedding of [src/index.ts]

    The TypeScript source defines a station directory, a fare table and the
    class [OysterCard] with the methods [load], [tapIn], [tapOut],
    [deductFare], [adjustFare], [calculateTubeFare] and [getBalance].

    Modelling choices.
    - A JavaScript [number] holding money is an IEEE 754 binary64 value,
      modelled by Rocq's primitive [float] (same format, round to nearest
      even), so [+], [-] and [<] below are the operations the program runs.
    - Zone numbers are integer-valued; they are modelled in [Z], on which
      [Math.abs (a - b) + 1] and the [switch] over 1, 2, default are exact.
    - A method of the class is a function from the object's state to a
      completion (normal return or thrown exception) and the state left
      behind: a throw keeps whatever was written to [this] before it. *)

From Stdlib Require Import Floats ZArith List String Ascii Bool Lia.
Import ListNotations.

Set Warnings "-inexact-float".

Local Open Scope string_scope.

(** ** Data model *)

Record Station := { name : string; zones : list Z }.

Inductive TransportType := BUS | TUBE.

Record Journey := {
  from : string;
  to : option string;
  type : TransportType
}.

Definition stations : list Station :=
  [ {| name := "Holburn"; zones := [1%Z] |};
    {| name := "Chelsea"; zones := [1%Z] |};
    {| name := "Earl's Court"; zones := [1%Z; 2%Z] |};
    {| name := "Wimbledon"; zones := [3%Z] |};
    {| name := "Hammersmith"; zones := [2%Z] |};
    {| name := "Southfields"; zones := [3%Z] |};
    {| name := "Any Station"; zones := [1%Z] |};
    {| name := "Another Station"; zones := [1%Z] |};
    {| name := "Final Station"; zones := [1%Z] |} ].

Record TubeFares := {
  zone1Only : float;
  oneZoneOutsideZone1 : float;
  twoZonesIncludingZone1 : float;
  twoZonesExcludingZone1 : float;
  threeZones : float
}.

Record Fares := { bus : float; max : float; tube : TubeFares }.

Definition fares : Fares :=
  {| bus := 1.80%float;
     max := 3.20%float;
     tube := {| zone1Only := 2.50%float;
                oneZoneOutsideZone1 := 2.00%float;
                twoZonesIncludingZone1 := 3.00%float;
                twoZonesExcludingZone1 := 2.25%float;
                threeZones := 3.20%float |} |}.

(** The two private fields of the class. *)
Record OysterCard := {
  balance : float;
  currentJourney : option Journey
}.

(** [new OysterCard(initialBalance)]. *)
Definition newOysterCard (initialBalance : float) : OysterCard :=
  {| balance := initialBalance; currentJourney := None |}.

(** ** Exceptions and methods *)

(** The exceptions the methods can raise.  The first three are the
    [new Error(...)] of the source; [TypeErrorUndefined] is the engine's
    [TypeError] on reading [.zones] of [undefined]. *)
Inductive Error :=
| StationNotFound (stationName : string)
| InsufficientBalance
| InvalidTapOut
| TypeErrorUndefined.

Definition message (e : Error) : string :=
  match e with
  | StationNotFound stationName => "Station " ++ stationName ++ " not found."
  | InsufficientBalance => "Insufficient balance."
  | InvalidTapOut => "Invalid tap out."
  | TypeErrorUndefined => "Cannot read properties of undefined (reading 'zones')"
  end.

Inductive Completion (A : Type) :=
| Normal (a : A)
| Throw (e : Error).
Arguments Normal {A} a.
Arguments Throw {A} e.

Definition Method (A : Type) : Type := OysterCard -> Completion A * OysterCard.

Definition ret {A} (a : A) : Method A := fun this => (Normal a, this).

Definition throw {A} (e : Error) : Method A := fun this => (Throw e, this).

Definition bind {A B} (m : Method A) (k : A -> Method B) : Method B :=
  fun this =>
    match m this with
    | (Normal a, this') => k a this'
    | (Throw e, this') => (Throw e, this')
    end.

Declare Scope method_scope.
Delimit Scope method_scope with method.
Notation "x <- m ;; k" := (bind m (fun x => k))
  (at level 61, m at next level, right associativity) : method_scope.
Notation "m ;; k" := (bind m (fun _ => k))
  (at level 61, right associativity) : method_scope.
Local Open Scope method_scope.

Definition getBalance : Method float := fun this => (Normal (balance this), this).

Definition getCurrentJourney : Method (option Journey) :=
  fun this => (Normal (currentJourney this), this).

Definition setBalance (b : float) : Method unit :=
  fun this => (Normal tt, {| balance := b; currentJourney := currentJourney this |}).

Definition setCurrentJourney (j : option Journey) : Method unit :=
  fun this => (Normal tt, {| balance := balance this; currentJourney := j |}).

(** ** The methods of [OysterCard] *)

Definition load (amount : float) : Method unit :=
  b <- getBalance ;; setBalance (b + amount)%float.

Definition deductFare (amount : float) : Method unit :=
  b <- getBalance ;;
  if (b <? amount)%float then throw InsufficientBalance
  else setBalance (b - amount)%float.

Definition adjustFare (refund : float) : Method unit :=
  b <- getBalance ;; setBalance (b + refund)%float.

(** [stations.find(s => s.name === stationName)]. *)
Definition findStation (stationName : string) : option Station :=
  find (fun s => String.eqb (name s) stationName) stations.

Definition tapIn (stationName : string) (type : TransportType) : Method unit :=
  match findStation stationName with
  | None => throw (StationNotFound stationName)
  | Some _ =>
      match type with
      | TUBE =>
          deductFare (max fares) ;;
          setCurrentJourney
            (Some {| from := stationName; to := None; type := type |})
      | BUS => deductFare (bus fares)
      end
  end.

(** [Math.min(...values)] as ECMAScript defines it: start from [+Infinity];
    a NaN argument gives NaN; [-0] is below [+0]. *)
Fixpoint Math_min_from (lowest : float) (values : list float) : float :=
  match values with
  | [] => lowest
  | number :: rest =>
      if is_nan number then nan
      else if is_zero number && get_sign number
              && is_zero lowest && negb (get_sign lowest)
           then Math_min_from number rest
      else if (number <? lowest)%float then Math_min_from number rest
      else Math_min_from lowest rest
  end.

Definition Math_min (values : list float) : float :=
  Math_min_from infinity values.

(** The body of the inner loop of [calculateTubeFare]: the fare of one
    combination of a starting and an ending zone. *)
Definition zonePairFare (fromZone toZone : Z) : float :=
  let journeySize := (Z.abs (fromZone - toZone) + 1)%Z in
  let isZone1Involved := ((fromZone =? 1) || (toZone =? 1))%Z in
  match journeySize with
  | 1%Z => if isZone1Involved then zone1Only (tube fares)
           else oneZoneOutsideZone1 (tube fares)
  | 2%Z => if isZone1Involved then twoZonesIncludingZone1 (tube fares)
           else twoZonesExcludingZone1 (tube fares)
  | _ => threeZones (tube fares)
  end.

(** The array [possibleFares] once both loops have run. *)
Definition possibleFares (fromStation toStation : Station) : list float :=
  flat_map
    (fun fromZone => map (fun toZone => zonePairFare fromZone toZone)
                         (zones toStation))
    (zones fromStation).

Definition calculateTubeFare (fromStation toStation : Station) : float :=
  Math_min (possibleFares fromStation toStation).

Definition TransportType_eqb (a b : TransportType) : bool :=
  match a, b with
  | BUS, BUS | TUBE, TUBE => true
  | _, _ => false
  end.

Definition tapOut (stationName : string) : Method unit :=
  j <- getCurrentJourney ;;
  match j with
  | None => throw InvalidTapOut
  | Some journey =>
      if negb (TransportType_eqb (type journey) TUBE) then throw InvalidTapOut
      else
        let departureStation := findStation (from journey) in
        match findStation stationName with
        | None => throw (StationNotFound stationName)
        | Some arrivalStation =>
            match departureStation with
            | None => throw TypeErrorUndefined
            | Some departure =>
                let fare := calculateTubeFare departure arrivalStation in
                adjustFare (max fares - fare)%float ;;
                setCurrentJourney None
            end
        end
  end.

(** ** Sequences of calls on one card *)

(** A call of one of the three mutating methods by a client of the class. *)
Inductive Call :=
| CallLoad (amount : float)
| CallTapIn (stationName : string) (type : TransportType)
| CallTapOut (stationName : string).

Definition perform (c : Call) : Method unit :=
  match c with
  | CallLoad amount => load amount
  | CallTapIn stationName type => tapIn stationName type
  | CallTapOut stationName => tapOut stationName
  end.

(** One entry of a card's history: the call and how it completed. *)
Definition Event : Type := Call * Completion unit.

(** The client runs the calls in order, catching every exception (as the
    script at the end of the source does), and records each completion. *)
Fixpoint runCalls (calls : list Call) (this : OysterCard)
  : list Event * OysterCard :=
  match calls with
  | [] => ([], this)
  | c :: rest =>
      let '(r, this') := perform c this in
      let '(log, final) := runCalls rest this' in
      ((c, r) :: log, final)
  end.

(** [n] bus taps at the stations [names], in order. *)
Definition busTaps (names : list string) : list Call :=
  map (fun stationName => CallTapIn stationName BUS) names.

(** The balance after [n] debits of the bus fare. *)
Definition busDebits (n : nat) (b : float) : float :=
  Nat.iter n (fun x => (x - bus fares)%float) b.

(** Reading a history: the origin of the tube tap-in that is still waiting
    for its tap-out, if any.  A successful tube tap-in sets it, a successful
    tap-out clears it, nothing else touches it. *)
Definition pendingStep (pending : option string) (e : Event) : option string :=
  match e with
  | (CallTapIn stationName TUBE, Normal _) => Some stationName
  | (CallTapOut _, Normal _) => None
  | _ => pending
  end.

Definition pendingTubeTapIn (log : list Event) : option string :=
  fold_left pendingStep log None.

(** Reading a history by the words of invariant I1: the most recent
    successful tap-in, of either transport type, was a tube tap and no
    successful tap-out followed it. *)
Definition lastTapInStep (open : bool) (e : Event) : bool :=
  match e with
  | (CallTapIn _ TUBE, Normal _) => true
  | (CallTapIn _ BUS, Normal _) => false
  | (CallTapOut _, Normal _) => false
  | _ => open
  end.

Definition lastTapInIsOpenTube (log : list Event) : bool :=
  fold_left lastTapInStep log false.

(** The open journey a tube tap-in at [stationName] records. *)
Definition tubeJourneyFrom (stationName : string) : Journey :=
  {| from := stationName; to := None; type := TUBE |}.

(** The card is inside an open tube journey (state InTubeJourney). *)
Definition inTubeJourney (this : OysterCard) : bool :=
  match currentJourney this with
  | Some journey => TransportType_eqb (type journey) TUBE
  | None => false
  end.

(** ** The fare table of the specification *)

(** The tier table of the specification, keyed by the span and by whether
    zone 1 is one of the two endpoint zones.  A span below 1 has no row. *)
Definition specTierFare (span : Z) (involvesZone1 : bool) : option float :=
  if (span =? 1)%Z then
    Some (if involvesZone1 then zone1Only (tube fares)
          else oneZoneOutsideZone1 (tube fares))
  else if (span =? 2)%Z then
    Some (if involvesZone1 then twoZonesIncludingZone1 (tube fares)
          else twoZonesExcludingZone1 (tube fares))
  else if (3 <=? span)%Z then Some (threeZones (tube fares))
  else None.

Definition specSpan (originZone destinationZone : Z) : Z :=
  (Z.abs (originZone - destinationZone) + 1)%Z.

Definition specInvolvesZone1 (originZone destinationZone : Z) : bool :=
  ((originZone =? 1) || (destinationZone =? 1))%Z.

(** The fare of one interpretation (originZone, destinationZone). *)
Definition specPairFare (originZone destinationZone : Z) : option float :=
  specTierFare (specSpan originZone destinationZone)
               (specInvolvesZone1 originZone destinationZone).

(** The five configured tier values. *)
Definition tierValues : list float :=
  [ zone1Only (tube fares); oneZoneOutsideZone1 (tube fares);
    twoZonesIncludingZone1 (tube fares); twoZonesExcludingZone1 (tube fares);
    threeZones (tube fares) ].

(** The values [Math.min] can hold while it scans an array of tier fares:
    its start value and the five tiers. *)
Definition minValues : list float := infinity :: tierValues.

(** One iteration of [Math.min] on a tier fare is a plain comparison. *)
Definition lower (lowest number : float) : float :=
  if (number <? lowest)%float then number else lowest.

(** What a tap-in of each transport type debits. *)
Definition tapInDebit (type : TransportType) : float :=
  match type with
  | TUBE => max fares
  | BUS => bus fares
  end.

(** Three entries of the directory, for the examples. *)
Definition holburn : Station := {| name := "Holburn"; zones := [1%Z] |}.
Definition earlsCourt : Station := {| name := "Earl's Court"; zones := [1%Z; 2%Z] |}.
Definition wimbledon : Station := {| name := "Wimbledon"; zones := [3%Z] |}.

(** The station name of the second tap-in of the script's
    incomplete-journey test: a double quote stands where the directory has
    an apostrophe. *)
Definition earlsCourtMistyped : string :=
  "Earl" ++ String (ascii_of_nat 34) "s Court".

(** What every card built by [new OysterCard] and driven through its
    methods satisfies: the journey it holds, if any, is a tube journey
    without destination whose origin is in the directory. *)
Definition journeyWellFormed (this : OysterCard) : Prop :=
  match currentJourney this with
  | None => True
  | Some journey =>
      journey = tubeJourneyFrom (from journey)
      /\ findStation (from journey) <> None
  end.

(** A station in the zones of Earl's Court, listed in another order and
    one of them twice. *)
Definition earlsCourtReordered : Station :=
  {| name := "Earls Court"; zones := [2%Z; 1%Z; 2%Z] |}.

(* ================================================================== *)
(** * Properties *)

(** ** The fare table as a finite ordered set *)

Ltac in_cases H :=
  simpl in H; repeat (destruct H as [<- | H]); try contradiction.

Lemma tierValues_minValues (x : float) : In x tierValues -> In x minValues.
Proof. intro H; right; exact H. Qed.

Lemma tier_not_nan (x : float) : In x tierValues -> is_nan x = false.
Proof. intro H; in_cases H; reflexivity. Qed.

Lemma tier_not_zero (x : float) : In x tierValues -> is_zero x = false.
Proof. intro H; in_cases H; reflexivity. Qed.

Lemma tier_le_max (x : float) :
  In x tierValues -> (x <=? max fares)%float = true.
Proof. intro H; in_cases H; reflexivity. Qed.

Lemma tier_refund_nonneg (x : float) :
  In x tierValues -> (0 <=? max fares - x)%float = true.
Proof. intro H; in_cases H; reflexivity. Qed.

(** On a balance of 30, the balance of the script's cards, debiting the
    maximum fare and crediting back the difference is exact for every
    tier. *)
Lemma settlement_exact_at_30 (x : float) :
  In x tierValues ->
  ((30 - max fares) + (max fares - x))%float = (30 - x)%float.
Proof. intro H; in_cases H; reflexivity. Qed.

Lemma minValues_leb_trans (x y z : float) :
  In x minValues -> In y minValues -> In z minValues ->
  (x <=? y)%float = true -> (y <=? z)%float = true -> (x <=? z)%float = true.
Proof.
  intros Hx Hy Hz; in_cases Hx; in_cases Hy; in_cases Hz;
    vm_compute; intros; congruence.
Qed.

Lemma minValues_leb_antisym (x y : float) :
  In x minValues -> In y minValues ->
  (x <=? y)%float = true -> (y <=? x)%float = true -> x = y.
Proof.
  intros Hx Hy; in_cases Hx; in_cases Hy;
    vm_compute; intros; congruence.
Qed.

Lemma Math_min_from_cons (lowest number : float) (rest : list float) :
  In number tierValues ->
  Math_min_from lowest (number :: rest) = Math_min_from (lower lowest number) rest.
Proof.
  intro H. cbn [Math_min_from].
  rewrite (tier_not_nan _ H), (tier_not_zero _ H). cbn [andb].
  unfold lower. destruct (number <? lowest)%float; reflexivity.
Qed.

Lemma lower_cases (lowest number : float) :
  In lowest minValues -> In number tierValues ->
  (lower lowest number = lowest \/ lower lowest number = number)
  /\ (lower lowest number <=? lowest)%float = true
  /\ (lower lowest number <=? number)%float = true.
Proof.
  intros Hl Hn; in_cases Hl; in_cases Hn; vm_compute; auto.
Qed.

Lemma lower_minValues (lowest number : float) :
  In lowest minValues -> In number tierValues ->
  In (lower lowest number) minValues.
Proof.
  intros Hl Hn. destruct (lower_cases _ _ Hl Hn) as [[-> | ->] _]; auto.
  now apply tierValues_minValues.
Qed.

(** What the scan returns: the start value or an element, below both. *)
Lemma Math_min_from_spec (values : list float) :
  Forall (fun x => In x tierValues) values ->
  forall lowest, In lowest minValues ->
    let r := Math_min_from lowest values in
    (r = lowest \/ In r values)
    /\ (r <=? lowest)%float = true
    /\ (forall x, In x values -> (r <=? x)%float = true).
Proof.
  induction 1 as [| number rest Hn Hrest IH]; intros lowest Hl.
  - cbn. split; [now left | split].
    + in_cases Hl; reflexivity.
    + intros x [].
  - cbv zeta. rewrite (Math_min_from_cons _ _ _ Hn).
    pose proof (lower_minValues _ _ Hl Hn) as Hl'.
    destruct (lower_cases _ _ Hl Hn) as (Hsel & Hle_l & Hle_n).
    destruct (IH _ Hl') as (Hin & Hle & Hall).
    set (r := Math_min_from (lower lowest number) rest) in *.
    assert (Hr : In r minValues).
    { destruct Hin as [-> | Hin]; auto.
      apply tierValues_minValues.
      rewrite Forall_forall in Hrest. now apply Hrest. }
    assert (Hnm : In number minValues) by now apply tierValues_minValues.
    repeat split.
    + destruct Hin as [Hin | Hin].
      * destruct Hsel as [Hs | Hs]; rewrite Hs in Hin; [left | right; left]; auto.
      * right; right; exact Hin.
    + exact (minValues_leb_trans _ _ _ Hr Hl' Hl Hle Hle_l).
    + intros x [<- | Hx].
      * exact (minValues_leb_trans _ _ _ Hr Hl' Hnm Hle Hle_n).
      * now apply Hall.
Qed.

(** [Math.min] of a non-empty array of tier fares is its least element. *)
Lemma Math_min_least (values : list float) :
  Forall (fun x => In x tierValues) values ->
  values <> [] ->
  In (Math_min values) values
  /\ (forall x, In x values -> (Math_min values <=? x)%float = true).
Proof.
  intros Hall Hne.
  destruct values as [| number rest]; [congruence |].
  inversion Hall as [| ? ? Hn Hrest]; subst.
  unfold Math_min. rewrite (Math_min_from_cons _ _ _ Hn).
  assert (Hl : lower infinity number = number).
  { clear - Hn. in_cases Hn; reflexivity. }
  rewrite Hl.
  destruct (Math_min_from_spec rest Hrest number (tierValues_minValues _ Hn))
    as (Hin & Hle & Hmin).
  split.
  - destruct Hin as [-> | Hin]; [left | right]; auto.
  - intros x [<- | Hx]; auto.
Qed.

(** [Math.min] only depends on which tier fares occur in the array. *)
Lemma Math_min_same_elements (l1 l2 : list float) :
  Forall (fun x => In x tierValues) l1 ->
  incl l1 l2 -> incl l2 l1 ->
  Math_min l1 = Math_min l2.
Proof.
  intros H1 H12 H21.
  assert (H2 : Forall (fun x => In x tierValues) l2).
  { rewrite Forall_forall in *. intros x Hx. apply H1, H21, Hx. }
  destruct l1 as [| a l1].
  - destruct l2 as [| b l2]; [reflexivity |].
    destruct (H21 b (or_introl eq_refl)).
  - assert (Hne1 : a :: l1 <> []) by discriminate.
    assert (Hne2 : l2 <> []).
    { intros ->. destruct (H12 a (or_introl eq_refl)). }
    destruct (Math_min_least _ H1 Hne1) as (Hin1 & Hmin1).
    destruct (Math_min_least _ H2 Hne2) as (Hin2 & Hmin2).
    rewrite Forall_forall in H1, H2.
    apply minValues_leb_antisym.
    + apply tierValues_minValues, H1, Hin1.
    + apply tierValues_minValues, H2, Hin2.
    + apply Hmin1, H21, Hin2.
    + apply Hmin2, H12, Hin1.
Qed.

(** ** The zone fare resolver *)

Lemma zonePairFare_tier (fromZone toZone : Z) :
  In (zonePairFare fromZone toZone) tierValues.
Proof.
  unfold zonePairFare, tierValues.
  destruct (Z.abs (fromZone - toZone) + 1)%Z as [| p | p];
    [| destruct p as [[?|?|]|[?|?|]|] |];
    destruct ((fromZone =? 1) || (toZone =? 1))%Z; simpl; tauto.
Qed.

Lemma zonePairFare_sym (fromZone toZone : Z) :
  zonePairFare fromZone toZone = zonePairFare toZone fromZone.
Proof.
  unfold zonePairFare.
  replace (Z.abs (toZone - fromZone)) with (Z.abs (fromZone - toZone)) by lia.
  rewrite (orb_comm (toZone =? 1)%Z). reflexivity.
Qed.

(** The loop body computes the tier the table of the specification gives. *)
Lemma zonePairFare_spec (originZone destinationZone : Z) :
  specPairFare originZone destinationZone
  = Some (zonePairFare originZone destinationZone).
Proof.
  unfold specPairFare, specTierFare, specSpan, specInvolvesZone1, zonePairFare.
  pose proof (Z.abs_nonneg (originZone - destinationZone)) as Hspan.
  destruct (Z.abs (originZone - destinationZone) + 1)%Z as [| p | p] eqn:E;
    try lia.
  destruct p as [[?|?|]|[?|?|]|]; reflexivity.
Qed.

Lemma possibleFares_In (fromStation toStation : Station) (x : float) :
  In x (possibleFares fromStation toStation) <->
  exists fromZone toZone,
    In fromZone (zones fromStation) /\ In toZone (zones toStation)
    /\ x = zonePairFare fromZone toZone.
Proof.
  unfold possibleFares. rewrite in_flat_map. split.
  - intros (fromZone & Hf & Hx). apply in_map_iff in Hx.
    destruct Hx as (toZone & <- & Ht). eauto.
  - intros (fromZone & toZone & Hf & Ht & ->).
    exists fromZone. split; [exact Hf |]. apply in_map_iff. eauto.
Qed.

Lemma possibleFares_tier (fromStation toStation : Station) :
  Forall (fun x => In x tierValues) (possibleFares fromStation toStation).
Proof.
  apply Forall_forall. intros x Hx. apply possibleFares_In in Hx.
  destruct Hx as (fromZone & toZone & _ & _ & ->). apply zonePairFare_tier.
Qed.

Lemma possibleFares_nonempty (fromStation toStation : Station) :
  zones fromStation <> [] -> zones toStation <> [] ->
  possibleFares fromStation toStation <> [].
Proof.
  intros Hf Ht Hnil.
  destruct (zones fromStation) as [| a l] eqn:Ea; [congruence |].
  destruct (zones toStation) as [| b m] eqn:Eb; [congruence |].
  assert (Hin : In (zonePairFare a b) (possibleFares fromStation toStation)).
  { apply possibleFares_In. exists a, b. rewrite Ea, Eb. simpl. auto. }
  rewrite Hnil in Hin. destruct Hin.
Qed.

Lemma possibleFares_swap (fromStation toStation : Station) :
  incl (possibleFares fromStation toStation)
       (possibleFares toStation fromStation).
Proof.
  intros x Hx. apply possibleFares_In in Hx.
  destruct Hx as (fromZone & toZone & Hf & Ht & ->).
  apply possibleFares_In. exists toZone, fromZone.
  repeat split; auto. apply zonePairFare_sym.
Qed.

(** C2: for two stations with non-empty zone lists, [calculateTubeFare]
    returns the minimum, over all pairs (originZone, destinationZone) of the
    two zone lists, of the tier fare the table gives for
    span = |originZone - destinationZone| + 1 and for whether zone 1 is one
    of the two zones: the result is the tier fare of some pair, every pair
    has a tier fare, and none is below the result. *)
Theorem calculateTubeFare_is_minimum (origin destination : Station) :
  zones origin <> [] -> zones destination <> [] ->
  (exists originZone destinationZone,
      In originZone (zones origin) /\ In destinationZone (zones destination)
      /\ specPairFare originZone destinationZone
         = Some (calculateTubeFare origin destination))
  /\ (forall originZone destinationZone,
        In originZone (zones origin) -> In destinationZone (zones destination) ->
        exists fare,
          specPairFare originZone destinationZone = Some fare
          /\ (calculateTubeFare origin destination <=? fare)%float = true).
Proof.
  intros Ho Hd.
  destruct (Math_min_least _ (possibleFares_tier origin destination)
                           (possibleFares_nonempty _ _ Ho Hd)) as (Hin & Hmin).
  fold (calculateTubeFare origin destination) in Hin, Hmin.
  split.
  - apply possibleFares_In in Hin.
    destruct Hin as (originZone & destinationZone & H1 & H2 & Heq).
    exists originZone, destinationZone. repeat split; auto.
    rewrite Heq. apply zonePairFare_spec.
  - intros originZone destinationZone H1 H2.
    exists (zonePairFare originZone destinationZone).
    split; [apply zonePairFare_spec |].
    apply Hmin, possibleFares_In. eauto.
Qed.

Lemma calculateTubeFare_is_minimum_witness :
  calculateTubeFare earlsCourt wimbledon = 2.25%float
  /\ (exists originZone destinationZone,
        In originZone (zones earlsCourt) /\ In destinationZone (zones wimbledon)
        /\ specPairFare originZone destinationZone
           = Some (calculateTubeFare earlsCourt wimbledon))
  /\ (forall originZone destinationZone,
        In originZone (zones earlsCourt) -> In destinationZone (zones wimbledon) ->
        exists fare,
          specPairFare originZone destinationZone = Some fare
          /\ (calculateTubeFare earlsCourt wimbledon <=? fare)%float = true).
Proof.
  split; [reflexivity |].
  apply (calculateTubeFare_is_minimum earlsCourt wimbledon); simpl; discriminate.
Defined.

(** C9: [calculateTubeFare] is commutative in its two stations.  It holds
    for all zone lists, empty ones included (both sides are then
    [+Infinity]), hence for the non-empty ones of the claim. *)
Theorem calculateTubeFare_comm (a b : Station) :
  calculateTubeFare a b = calculateTubeFare b a.
Proof.
  unfold calculateTubeFare.
  apply Math_min_same_elements.
  - apply possibleFares_tier.
  - apply possibleFares_swap.
  - apply possibleFares_swap.
Qed.

Lemma calculateTubeFare_le_max (a b : Station) :
  zones a <> [] -> zones b <> [] ->
  (calculateTubeFare a b <=? max fares)%float = true.
Proof.
  intros Ha Hb.
  destruct (Math_min_least _ (possibleFares_tier a b)
                           (possibleFares_nonempty _ _ Ha Hb)) as (Hin & _).
  pose proof (possibleFares_tier a b) as Hall.
  rewrite Forall_forall in Hall.
  apply tier_le_max, Hall, Hin.
Qed.

Lemma calculateTubeFare_refund_nonneg (a b : Station) :
  zones a <> [] -> zones b <> [] ->
  (0 <=? max fares - calculateTubeFare a b)%float = true.
Proof.
  intros Ha Hb.
  destruct (Math_min_least _ (possibleFares_tier a b)
                           (possibleFares_nonempty _ _ Ha Hb)) as (Hin & _).
  pose proof (possibleFares_tier a b) as Hall.
  rewrite Forall_forall in Hall.
  apply tier_refund_nonneg, Hall, Hin.
Qed.

(** ** The card session: single calls *)

Lemma stations_zones_nonempty (stationName : string) (station : Station) :
  findStation stationName = Some station -> zones station <> [].
Proof.
  unfold findStation. intro H. apply find_some in H. destruct H as [H _].
  in_cases H; discriminate.
Qed.

Lemma load_eq (amount : float) (this : OysterCard) :
  load amount this
  = (Normal tt, {| balance := (balance this + amount)%float;
                   currentJourney := currentJourney this |}).
Proof. reflexivity. Qed.

Lemma deductFare_insufficient (amount : float) (this : OysterCard) :
  (balance this <? amount)%float = true ->
  deductFare amount this = (Throw InsufficientBalance, this).
Proof.
  intro H. unfold deductFare, bind, getBalance. rewrite H. reflexivity.
Qed.

Lemma deductFare_sufficient (amount : float) (this : OysterCard) :
  (balance this <? amount)%float = false ->
  deductFare amount this
  = (Normal tt, {| balance := (balance this - amount)%float;
                   currentJourney := currentJourney this |}).
Proof.
  intro H. unfold deductFare, bind, getBalance. rewrite H. reflexivity.
Qed.

(** A debit either throws and writes nothing, or only writes the balance. *)
Lemma deductFare_journey (amount : float) (this : OysterCard) :
  currentJourney (snd (deductFare amount this)) = currentJourney this.
Proof.
  destruct (balance this <? amount)%float eqn:E.
  - rewrite (deductFare_insufficient _ _ E). reflexivity.
  - rewrite (deductFare_sufficient _ _ E). reflexivity.
Qed.

Lemma tapIn_unknown (stationName : string) (type : TransportType)
      (this : OysterCard) :
  findStation stationName = None ->
  tapIn stationName type this = (Throw (StationNotFound stationName), this).
Proof. intro H. unfold tapIn. rewrite H. reflexivity. Qed.

Lemma tapIn_insufficient (stationName : string) (type : TransportType)
      (this : OysterCard) :
  findStation stationName <> None ->
  (balance this <? tapInDebit type)%float = true ->
  tapIn stationName type this = (Throw InsufficientBalance, this).
Proof.
  intros Hk Hb. unfold tapIn.
  destruct (findStation stationName); [| congruence].
  destruct type; cbn [tapInDebit] in Hb.
  - now apply deductFare_insufficient.
  - unfold bind. rewrite (deductFare_insufficient _ _ Hb). reflexivity.
Qed.

Lemma tapIn_bus_sufficient (stationName : string) (this : OysterCard) :
  findStation stationName <> None ->
  (balance this <? bus fares)%float = false ->
  tapIn stationName BUS this
  = (Normal tt, {| balance := (balance this - bus fares)%float;
                   currentJourney := currentJourney this |}).
Proof.
  intros Hk Hb. unfold tapIn.
  destruct (findStation stationName); [| congruence].
  now apply deductFare_sufficient.
Qed.

Lemma tapIn_tube_sufficient (stationName : string) (this : OysterCard) :
  findStation stationName <> None ->
  (balance this <? max fares)%float = false ->
  tapIn stationName TUBE this
  = (Normal tt, {| balance := (balance this - max fares)%float;
                   currentJourney := Some (tubeJourneyFrom stationName) |}).
Proof.
  intros Hk Hb. unfold tapIn.
  destruct (findStation stationName); [| congruence].
  unfold bind. rewrite (deductFare_sufficient _ _ Hb). reflexivity.
Qed.

(** A bus tap-in never writes [currentJourney], however it completes. *)
Lemma tapIn_bus_journey (stationName : string) (this : OysterCard) :
  currentJourney (snd (tapIn stationName BUS this)) = currentJourney this.
Proof.
  unfold tapIn. destruct (findStation stationName); [| reflexivity].
  apply deductFare_journey.
Qed.

(** A tube tap-in that returns has recorded its station; one that throws
    has written nothing. *)
Lemma tapIn_tube_outcome (stationName : string) (this : OysterCard) :
  match tapIn stationName TUBE this with
  | (Normal _, this') =>
      currentJourney this' = Some (tubeJourneyFrom stationName)
  | (Throw _, this') => this' = this
  end.
Proof.
  unfold tapIn. destruct (findStation stationName); [| reflexivity].
  unfold bind. destruct (balance this <? max fares)%float eqn:E.
  - rewrite (deductFare_insufficient _ _ E). reflexivity.
  - rewrite (deductFare_sufficient _ _ E). reflexivity.
Qed.

Lemma tapOut_not_in_journey (stationName : string) (this : OysterCard) :
  inTubeJourney this = false ->
  tapOut stationName this = (Throw InvalidTapOut, this).
Proof.
  unfold inTubeJourney, tapOut, bind, getCurrentJourney. cbn [fst snd].
  destruct (currentJourney this) as [journey |]; [| reflexivity].
  intros ->. reflexivity.
Qed.

Lemma tapOut_unknown (stationName : string) (this : OysterCard) :
  inTubeJourney this = true ->
  findStation stationName = None ->
  tapOut stationName this = (Throw (StationNotFound stationName), this).
Proof.
  unfold inTubeJourney, tapOut, bind, getCurrentJourney.
  destruct (currentJourney this) as [journey |]; [| discriminate].
  intros -> ->. reflexivity.
Qed.

Lemma tapOut_known (stationName : string) (this : OysterCard)
      (journey : Journey) (departure arrival : Station) :
  currentJourney this = Some journey ->
  type journey = TUBE ->
  findStation (from journey) = Some departure ->
  findStation stationName = Some arrival ->
  tapOut stationName this
  = (Normal tt,
     {| balance := (balance this
                    + (max fares - calculateTubeFare departure arrival))%float;
        currentJourney := None |}).
Proof.
  intros Hj Ht Hd Ha. unfold tapOut, bind, getCurrentJourney.
  rewrite Hj, Ht, Hd, Ha. reflexivity.
Qed.

(** A tap-out that returns has cleared the journey; one that throws has
    written nothing. *)
Lemma tapOut_outcome (stationName : string) (this : OysterCard) :
  match tapOut stationName this with
  | (Normal _, this') => inTubeJourney this = true /\ currentJourney this' = None
  | (Throw _, this') => this' = this
  end.
Proof.
  unfold tapOut, inTubeJourney, bind, getCurrentJourney.
  destruct (currentJourney this) as [journey |]; [| reflexivity].
  destruct (TransportType_eqb (type journey) TUBE); [| reflexivity].
  cbn [negb].
  destruct (findStation stationName); [| reflexivity].
  destruct (findStation (from journey)); [| reflexivity].
  cbn. auto.
Qed.

(** ** The card session: histories *)

Lemma runCalls_cons (c : Call) (rest : list Call) (this : OysterCard) :
  runCalls (c :: rest) this
  = ((c, fst (perform c this))
       :: fst (runCalls rest (snd (perform c this))),
     snd (runCalls rest (snd (perform c this)))).
Proof.
  cbn [runCalls]. destruct (perform c this) as [r this']. cbn [fst snd].
  destruct (runCalls rest this') as [log final]. reflexivity.
Qed.

(** One call keeps [currentJourney] in step with the reading of the
    history. *)
Lemma perform_pending (c : Call) (this : OysterCard) (pending : option string) :
  currentJourney this = option_map tubeJourneyFrom pending ->
  currentJourney (snd (perform c this))
  = option_map tubeJourneyFrom (pendingStep pending (c, fst (perform c this))).
Proof.
  intro Hinv. destruct c as [amount | stationName [|] | stationName];
    cbn [perform pendingStep].
  - rewrite load_eq. exact Hinv.
  - rewrite tapIn_bus_journey. exact Hinv.
  - pose proof (tapIn_tube_outcome stationName this) as H.
    destruct (tapIn stationName TUBE this) as [[[] | e] this']; cbn [fst snd].
    + exact H.
    + subst this'. exact Hinv.
  - pose proof (tapOut_outcome stationName this) as H.
    destruct (tapOut stationName this) as [[[] | e] this']; cbn [fst snd].
    + apply H.
    + subst this'. exact Hinv.
Qed.

Lemma runCalls_pending (calls : list Call) :
  forall (this : OysterCard) (pending : option string),
    currentJourney this = option_map tubeJourneyFrom pending ->
    currentJourney (snd (runCalls calls this))
    = option_map tubeJourneyFrom
        (fold_left pendingStep (fst (runCalls calls this)) pending).
Proof.
  induction calls as [| c rest IH]; intros this pending Hinv.
  - exact Hinv.
  - rewrite runCalls_cons. cbn [fst snd fold_left].
    apply IH, perform_pending, Hinv.
Qed.

(** Every card a client can build and drive holds exactly the journey its
    history says is pending. *)
Lemma reachable_pending (initialBalance : float) (calls : list Call) :
  currentJourney (snd (runCalls calls (newOysterCard initialBalance)))
  = option_map tubeJourneyFrom
      (pendingTubeTapIn (fst (runCalls calls (newOysterCard initialBalance)))).
Proof. apply runCalls_pending. reflexivity. Qed.

Lemma busDebits_shift (n : nat) (b : float) :
  busDebits n (b - bus fares)%float = busDebits (S n) b.
Proof.
  unfold busDebits.
  exact (eq_sym (Nat.iter_succ_r n _ (fun x => (x - bus fares)%float) b)).
Qed.

Lemma runCalls_busTaps (names : list string) :
  forall this : OysterCard,
    Forall (fun stationName => findStation stationName <> None) names ->
    (forall k, (k < List.length names)%nat ->
               (busDebits k (balance this) <? bus fares)%float = false) ->
    runCalls (busTaps names) this
    = (map (fun stationName => (CallTapIn stationName BUS, Normal tt)) names,
       {| balance := busDebits (List.length names) (balance this);
          currentJourney := currentJourney this |}).
Proof.
  induction names as [| stationName rest IH]; intros this Hk Hb.
  - destruct this; reflexivity.
  - inversion Hk as [| ? ? Hk1 Hk2]; subst.
    cbn [busTaps map]. rewrite runCalls_cons. cbn [perform].
    assert (H0 : (balance this <? bus fares)%float = false).
    { apply (Hb 0%nat). cbn; lia. }
    rewrite (tapIn_bus_sufficient _ _ Hk1 H0). cbn [fst snd].
    fold (busTaps rest). rewrite IH; [| exact Hk2 |].
    + cbn [fst snd balance currentJourney List.length map].
      now rewrite busDebits_shift.
    + intros k Hlt. cbn [balance]. rewrite busDebits_shift.
      apply Hb. cbn; lia.
Qed.

(** ** Tube tap-in while a journey is open *)

(** Whatever journey the card holds, a tube tap-in at a known station with
    enough balance returns normally, debits the maximum fare again and
    replaces the journey. *)
Lemma tapIn_tube_reopens (stationName : string) (this : OysterCard) :
  inTubeJourney this = true ->
  findStation stationName <> None ->
  (balance this <? max fares)%float = false ->
  tapIn stationName TUBE this
  = (Normal tt, {| balance := (balance this - max fares)%float;
                   currentJourney := Some (tubeJourneyFrom stationName) |}).
Proof. intros _. apply tapIn_tube_sufficient. Qed.

(** The incomplete-journey test of the script expects the second tube
    tap-in to throw.  It does, but only because the station name it passes
    is not in the directory. *)
Lemma script_incomplete_journey_test :
  findStation earlsCourtMistyped = None
  /\ runCalls [CallTapIn "Holburn" TUBE; CallTapIn earlsCourtMistyped TUBE]
              (newOysterCard 30)
     = ([(CallTapIn "Holburn" TUBE, Normal tt);
         (CallTapIn earlsCourtMistyped TUBE,
          Throw (StationNotFound earlsCourtMistyped))],
        {| balance := (30 - max fares)%float;
           currentJourney := Some (tubeJourneyFrom "Holburn") |}).
Proof. split; vm_compute; reflexivity. Qed.

(** C1, what the code does where the claim asks for a rejection: on a card
    loaded with 30, a tube tap-in at Holburn followed by a tube tap-in at
    Earl's Court (both in the directory) returns normally twice; the maximum
    fare is debited twice and the open journey now starts at Earl's Court,
    the origin Holburn being lost. *)
Theorem tapIn_tube_twice_not_rejected :
  runCalls [CallTapIn "Holburn" TUBE; CallTapIn "Earl's Court" TUBE]
           (newOysterCard 30)
  = ([(CallTapIn "Holburn" TUBE, Normal tt);
      (CallTapIn "Earl's Court" TUBE, Normal tt)],
     {| balance := (30 - max fares - max fares)%float;
        currentJourney := Some (tubeJourneyFrom "Earl's Court") |}).
Proof. vm_compute. reflexivity. Qed.

(** ** Settlement of a tube journey *)

(** C3 as stated fails on binary64 balances: on a card loaded with 11.22,
    a tube tap-in at Holburn and a tap-out at Earl's Court both return
    normally, the fare is 2.50, and the balance left is not 11.22 - 2.50
    (it is 8.719999999999999, one rounding step below 8.72), so the change
    of the balance is not minus the fare. *)
Lemma tube_journey_delta_not_exact :
  fst (runCalls [CallTapIn "Holburn" TUBE; CallTapOut "Earl's Court"]
                (newOysterCard 11.22))
  = [(CallTapIn "Holburn" TUBE, Normal tt);
     (CallTapOut "Earl's Court", Normal tt)]
  /\ calculateTubeFare holburn earlsCourt = 2.5%float
  /\ balance (snd (runCalls [CallTapIn "Holburn" TUBE; CallTapOut "Earl's Court"]
                            (newOysterCard 11.22)))
     <> (11.22 - calculateTubeFare holburn earlsCourt)%float
  /\ (balance (snd (runCalls [CallTapIn "Holburn" TUBE; CallTapOut "Earl's Court"]
                             (newOysterCard 11.22)))
      - 11.22)%float
     <> (- calculateTubeFare holburn earlsCourt)%float.
Proof.
  repeat split; try (vm_compute; reflexivity).
  - intro H.
    apply (f_equal (fun x => (x =? 11.22 - calculateTubeFare holburn earlsCourt)%float)) in H.
    vm_compute in H. discriminate.
  - intro H.
    apply (f_equal (fun x => (x =? - calculateTubeFare holburn earlsCourt)%float)) in H.
    vm_compute in H. discriminate.
Qed.

(** C3, amended: the tube fare between two stations with non-empty zone
    lists (as all stations of the directory have) never exceeds the maximum
    fare; and on any card with at least the maximum fare, a tube tap-in at a
    known station followed at once by a tap-out at a known station both
    return normally: the tap-in debits the maximum fare, the tap-out credits
    back the maximum fare minus the fare, which is not negative, and clears
    the journey, so that the balance left is (balance - max) + (max - fare)
    with each of the three operations rounded to binary64. *)
Theorem tube_journey_settlement
        (a b : Station) (this : OysterCard) (originName destinationName : string)
        (origin destination : Station) :
  zones a <> [] -> zones b <> [] ->
  findStation originName = Some origin ->
  findStation destinationName = Some destination ->
  (balance this <? max fares)%float = false ->
  (calculateTubeFare a b <=? max fares)%float = true
  /\ (calculateTubeFare origin destination <=? max fares)%float = true
  /\ (0 <=? max fares - calculateTubeFare origin destination)%float = true
  /\ tapIn originName TUBE this
     = (Normal tt, {| balance := (balance this - max fares)%float;
                      currentJourney := Some (tubeJourneyFrom originName) |})
  /\ tapOut destinationName
            {| balance := (balance this - max fares)%float;
               currentJourney := Some (tubeJourneyFrom originName) |}
     = (Normal tt,
        {| balance := ((balance this - max fares)
                       + (max fares - calculateTubeFare origin destination))%float;
           currentJourney := None |}).
Proof.
  intros Ha Hb Ho Hd Hbal.
  pose proof (stations_zones_nonempty _ _ Ho) as Hzo.
  pose proof (stations_zones_nonempty _ _ Hd) as Hzd.
  repeat split.
  - now apply calculateTubeFare_le_max.
  - now apply calculateTubeFare_le_max.
  - now apply calculateTubeFare_refund_nonneg.
  - apply tapIn_tube_sufficient; [congruence | exact Hbal].
  - exact (tapOut_known destinationName
             {| balance := (balance this - max fares)%float;
                currentJourney := Some (tubeJourneyFrom originName) |}
             (tubeJourneyFrom originName) origin destination
             eq_refl eq_refl Ho Hd).
Qed.

Lemma tube_journey_settlement_witness :
  (calculateTubeFare earlsCourt wimbledon <=? max fares)%float = true
  /\ (calculateTubeFare holburn earlsCourt <=? max fares)%float = true
  /\ (0 <=? max fares - calculateTubeFare holburn earlsCourt)%float = true
  /\ tapIn "Holburn" TUBE (newOysterCard 30)
     = (Normal tt, {| balance := (30 - max fares)%float;
                      currentJourney := Some (tubeJourneyFrom "Holburn") |})
  /\ tapOut "Earl's Court"
            {| balance := (30 - max fares)%float;
               currentJourney := Some (tubeJourneyFrom "Holburn") |}
     = (Normal tt,
        {| balance := ((30 - max fares)
                       + (max fares - calculateTubeFare holburn earlsCourt))%float;
           currentJourney := None |}).
Proof.
  apply (tube_journey_settlement earlsCourt wimbledon (newOysterCard 30)
           "Holburn" "Earl's Court" holburn earlsCourt).
  - simpl; discriminate.
  - simpl; discriminate.
  - reflexivity.
  - reflexivity.
  - reflexivity.
Defined.

(** ** Debits are all-or-nothing *)

(** C4: when the balance is below the amount [d] of a debit, the debit
    throws the insufficient-balance error; so does a tap-in at a known
    station when [d] is what a tap-in of its transport type debits (the
    maximum fare for tube, the bus fare for bus).  In both cases the card is
    left exactly as it was: same balance, same journey, open or not. *)
Theorem insufficient_balance_rejected
        (this : OysterCard) (d : float)
        (stationName : string) (type : TransportType) :
  (balance this <? d)%float = true ->
  deductFare d this = (Throw InsufficientBalance, this)
  /\ (findStation stationName <> None -> tapInDebit type = d ->
      tapIn stationName type this = (Throw InsufficientBalance, this)).
Proof.
  intros Hb. split.
  - now apply deductFare_insufficient.
  - intros Hk <-. now apply tapIn_insufficient.
Qed.

Lemma insufficient_balance_rejected_witness :
  deductFare (max fares) (newOysterCard 2)
  = (Throw InsufficientBalance, newOysterCard 2)
  /\ tapIn "Holburn" TUBE (newOysterCard 2)
     = (Throw InsufficientBalance, newOysterCard 2).
Proof.
  destruct (insufficient_balance_rejected
              (newOysterCard 2) (max fares) "Holburn" TUBE) as [H1 H2].
  - reflexivity.
  - split; [exact H1 |]. apply H2.
    + vm_compute; discriminate.
    + reflexivity.
Defined.

(** ** Tap-out needs an open tube journey *)

(** C5: on a card that is not inside a tube journey, a tap-out at any
    station name throws the invalid-tap-out error and leaves the card as it
    was; and on a card reached from a new one by any calls, a tap-out that
    returns normally means that the history holds a successful tube tap-in
    with no successful tap-out after it, whose station the open journey
    records. *)
Theorem tapOut_needs_open_tube_journey
        (this : OysterCard) (stationName : string)
        (initialBalance : float) (calls : list Call) :
  (inTubeJourney this = false ->
   tapOut stationName this = (Throw InvalidTapOut, this))
  /\ (fst (tapOut stationName (snd (runCalls calls (newOysterCard initialBalance))))
      = Normal tt ->
      exists originName,
        pendingTubeTapIn (fst (runCalls calls (newOysterCard initialBalance)))
        = Some originName
        /\ currentJourney (snd (runCalls calls (newOysterCard initialBalance)))
           = Some (tubeJourneyFrom originName)).
Proof.
  split; [apply tapOut_not_in_journey |].
  intro Hok.
  pose proof (reachable_pending initialBalance calls) as Hinv.
  set (reached := snd (runCalls calls (newOysterCard initialBalance))) in *.
  pose proof (tapOut_outcome stationName reached) as Hout.
  destruct (tapOut stationName reached) as [[[] | e] this']; [| discriminate].
  destruct Hout as [Hin _]. unfold inTubeJourney in Hin.
  destruct (pendingTubeTapIn _) as [originName |].
  - exists originName. split; [reflexivity | exact Hinv].
  - cbn in Hinv. rewrite Hinv in Hin. discriminate.
Qed.

Lemma tapOut_needs_open_tube_journey_witness :
  tapOut "Wimbledon" (newOysterCard 30) = (Throw InvalidTapOut, newOysterCard 30)
  /\ exists originName,
       pendingTubeTapIn
         (fst (runCalls [CallTapIn "Chelsea" TUBE; CallTapIn "Holburn" BUS]
                        (newOysterCard 30)))
       = Some originName
       /\ currentJourney
            (snd (runCalls [CallTapIn "Chelsea" TUBE; CallTapIn "Holburn" BUS]
                           (newOysterCard 30)))
          = Some (tubeJourneyFrom originName).
Proof.
  destruct (tapOut_needs_open_tube_journey
              (newOysterCard 30) "Wimbledon" 30
              [CallTapIn "Chelsea" TUBE; CallTapIn "Holburn" BUS]) as [H1 H2].
  split.
  - apply H1. reflexivity.
  - apply H2. reflexivity.
Defined.

(** ** The open journey and the history *)

(** C6 as worded fails: after a tube tap-in at Holburn and a bus tap-in at
    Chelsea, both successful, the card still holds the journey opened at
    Holburn, although its most recent tap-in was a bus tap. *)
Lemma open_journey_after_bus_tap :
  fst (runCalls [CallTapIn "Holburn" TUBE; CallTapIn "Chelsea" BUS]
                (newOysterCard 30))
  = [(CallTapIn "Holburn" TUBE, Normal tt); (CallTapIn "Chelsea" BUS, Normal tt)]
  /\ currentJourney
       (snd (runCalls [CallTapIn "Holburn" TUBE; CallTapIn "Chelsea" BUS]
                      (newOysterCard 30)))
     = Some (tubeJourneyFrom "Holburn")
  /\ lastTapInIsOpenTube
       (fst (runCalls [CallTapIn "Holburn" TUBE; CallTapIn "Chelsea" BUS]
                      (newOysterCard 30)))
     = false
  /\ ~ (forall (initialBalance : float) (calls : list Call),
          currentJourney (snd (runCalls calls (newOysterCard initialBalance)))
          <> None
          <-> lastTapInIsOpenTube
                (fst (runCalls calls (newOysterCard initialBalance))) = true).
Proof.
  repeat split; try (vm_compute; reflexivity).
  intro H.
  destruct (H 30%float [CallTapIn "Holburn" TUBE; CallTapIn "Chelsea" BUS])
    as [Hto _].
  assert (Hopen : lastTapInIsOpenTube
                    (fst (runCalls [CallTapIn "Holburn" TUBE; CallTapIn "Chelsea" BUS]
                                   (newOysterCard 30))) = true).
  { apply Hto. vm_compute. discriminate. }
  vm_compute in Hopen. discriminate.
Qed.

(** C6, amended: a card reached from a new one by any calls holds an open
    journey if and only if its history holds a successful tube tap-in with
    no successful tap-out after it (bus tap-ins in between do not count),
    and the journey then is the tube journey from that tap-in's station.
    This is so because load and bus tap-in never write the journey, a tube
    tap-in that returns sets it, a tap-out that returns clears it, and a
    call that throws writes nothing; the card holds at most one journey,
    the field being a single optional value. *)
Theorem open_journey_iff_pending_tube_tapIn
        (initialBalance : float) (calls : list Call)
        (this : OysterCard) (amount : float) (stationName : string) :
  currentJourney (snd (runCalls calls (newOysterCard initialBalance)))
  = option_map tubeJourneyFrom
      (pendingTubeTapIn (fst (runCalls calls (newOysterCard initialBalance))))
  /\ (currentJourney (snd (runCalls calls (newOysterCard initialBalance))) <> None
      <-> pendingTubeTapIn (fst (runCalls calls (newOysterCard initialBalance)))
          <> None)
  /\ currentJourney (snd (load amount this)) = currentJourney this
  /\ currentJourney (snd (tapIn stationName BUS this)) = currentJourney this
  /\ match tapIn stationName TUBE this with
     | (Normal _, this') =>
         currentJourney this' = Some (tubeJourneyFrom stationName)
     | (Throw _, this') => this' = this
     end
  /\ match tapOut stationName this with
     | (Normal _, this') => currentJourney this' = None
     | (Throw _, this') => this' = this
     end.
Proof.
  pose proof (reachable_pending initialBalance calls) as Hinv.
  split; [exact Hinv |]. split; [| split; [| split; [| split]]].
  - rewrite Hinv. destruct (pendingTubeTapIn _); cbn; split; congruence.
  - reflexivity.
  - apply tapIn_bus_journey.
  - apply tapIn_tube_outcome.
  - pose proof (tapOut_outcome stationName this) as H.
    destruct (tapOut stationName this) as [[[] | e] this']; tauto.
Qed.

(** ** Bus tap-ins *)

(** C7: the bus fare is 1.80; on a card in any state whose balance is not
    below it, a bus tap-in at a known station returns normally, debits the
    bus fare and leaves the journey, open or not, as it was; a bus tap-in
    never writes the journey, however it completes; and bus tap-ins at any
    number of known stations in a row, each finding a balance not below the
    bus fare, all return normally, each debiting the bus fare again, the
    journey still as it was. *)
Theorem bus_tapIn_flat_fare
        (this : OysterCard) (stationName : string) (names : list string) :
  findStation stationName <> None ->
  (balance this <? bus fares)%float = false ->
  Forall (fun n => findStation n <> None) names ->
  (forall k, (k < List.length names)%nat ->
             (busDebits k (balance this) <? bus fares)%float = false) ->
  bus fares = 1.8%float
  /\ tapIn stationName BUS this
     = (Normal tt, {| balance := (balance this - bus fares)%float;
                      currentJourney := currentJourney this |})
  /\ (forall anyName anyCard,
         currentJourney (snd (tapIn anyName BUS anyCard))
         = currentJourney anyCard)
  /\ runCalls (busTaps names) this
     = (map (fun n => (CallTapIn n BUS, Normal tt)) names,
        {| balance := busDebits (List.length names) (balance this);
           currentJourney := currentJourney this |}).
Proof.
  intros Hk Hb Hnames Hall. repeat split.
  - now apply tapIn_bus_sufficient.
  - intros anyName anyCard. apply tapIn_bus_journey.
  - now apply runCalls_busTaps.
Qed.

Lemma bus_tapIn_flat_fare_witness :
  bus fares = 1.8%float
  /\ tapIn "Earl's Court" BUS
           {| balance := 30; currentJourney := Some (tubeJourneyFrom "Holburn") |}
     = (Normal tt, {| balance := (30 - bus fares)%float;
                      currentJourney := Some (tubeJourneyFrom "Holburn") |})
  /\ (forall anyName anyCard,
         currentJourney (snd (tapIn anyName BUS anyCard))
         = currentJourney anyCard)
  /\ runCalls (busTaps ["Any Station"; "Another Station"; "Final Station"])
              {| balance := 30; currentJourney := Some (tubeJourneyFrom "Holburn") |}
     = (map (fun n => (CallTapIn n BUS, Normal tt))
            ["Any Station"; "Another Station"; "Final Station"],
        {| balance := busDebits 3 30;
           currentJourney := Some (tubeJourneyFrom "Holburn") |}).
Proof.
  apply (bus_tapIn_flat_fare
           {| balance := 30; currentJourney := Some (tubeJourneyFrom "Holburn") |}
           "Earl's Court" ["Any Station"; "Another Station"; "Final Station"]).
  - vm_compute; discriminate.
  - reflexivity.
  - repeat constructor; vm_compute; discriminate.
  - intros k Hlt. destruct k as [| [| [| k]]]; try reflexivity.
    simpl in Hlt. lia.
Defined.

(** ** Unknown stations *)

(** C8 as stated fails for tap-out: on a new card, which has no open
    journey, a tap-out at a name that is not in the directory throws the
    invalid-tap-out error, not the station-not-found error. *)
Lemma tapOut_unknown_station_when_idle :
  findStation "Nowhere" = None
  /\ tapOut "Nowhere" (newOysterCard 30)
     = (Throw InvalidTapOut, newOysterCard 30)
  /\ tapOut "Nowhere" (newOysterCard 30)
     <> (Throw (StationNotFound "Nowhere"), newOysterCard 30).
Proof.
  repeat split; try (vm_compute; reflexivity).
  vm_compute. discriminate.
Qed.

(** C8, amended: for a station name that is not in the directory, a tap-in
    of either transport type throws the station-not-found error, and so does
    a tap-out on a card inside a tube journey, while a tap-out on a card
    without one throws the invalid-tap-out error, which is checked first; in
    every case the card is left exactly as it was, no debit or credit having
    been applied. *)
Theorem unknown_station_rejected
        (this : OysterCard) (stationName : string) (type : TransportType) :
  findStation stationName = None ->
  tapIn stationName type this = (Throw (StationNotFound stationName), this)
  /\ tapOut stationName this
     = (Throw (if inTubeJourney this then StationNotFound stationName
               else InvalidTapOut),
        this).
Proof.
  intro Hu. split.
  - now apply tapIn_unknown.
  - destruct (inTubeJourney this) eqn:E.
    + now apply tapOut_unknown.
    + now apply tapOut_not_in_journey.
Qed.

Lemma unknown_station_rejected_witness :
  tapIn "Nowhere" TUBE
        {| balance := 30; currentJourney := Some (tubeJourneyFrom "Holburn") |}
  = (Throw (StationNotFound "Nowhere"),
     {| balance := 30; currentJourney := Some (tubeJourneyFrom "Holburn") |})
  /\ tapOut "Nowhere"
            {| balance := 30; currentJourney := Some (tubeJourneyFrom "Holburn") |}
     = (Throw (StationNotFound "Nowhere"),
        {| balance := 30; currentJourney := Some (tubeJourneyFrom "Holburn") |}).
Proof.
  apply (unknown_station_rejected
           {| balance := 30; currentJourney := Some (tubeJourneyFrom "Holburn") |}
           "Nowhere" TUBE).
  reflexivity.
Defined.

(** ** Loading *)

(** C10: for every amount, [load] returns normally, sets the balance to
    balance + amount and leaves the journey as it was; no amount is
    rejected: loading -5 on a card holding 1 returns normally and leaves a
    balance of -4, below zero. *)
Theorem load_adds_any_amount (this : OysterCard) (amount : float) :
  load amount this
  = (Normal tt, {| balance := (balance this + amount)%float;
                   currentJourney := currentJourney this |})
  /\ load (-5)%float (newOysterCard 1)
     = (Normal tt, {| balance := (-4)%float; currentJourney := None |})
  /\ ((-4) <? 0)%float = true.
Proof. repeat split. Qed.

(* ================================================================== *)
(** * Further properties of the fare resolver *)

(** Two different float constants are told apart by comparing them. *)
Ltac float_discr H :=
  match type of H with
  | ?a = ?b =>
      apply (f_equal (fun v => PrimFloat.eqb v b)) in H;
      vm_compute in H; discriminate H
  end.

Lemma tier_ge_cheapest (x : float) :
  In x tierValues -> (oneZoneOutsideZone1 (tube fares) <=? x)%float = true.
Proof. intro H; in_cases H; reflexivity. Qed.

Lemma tier_not_infinity (x : float) : In x tierValues -> x <> infinity.
Proof. intros H E; in_cases H; float_discr E. Qed.

Lemma possibleFares_empty (a b : Station) :
  zones a = [] \/ zones b = [] -> possibleFares a b = [].
Proof.
  unfold possibleFares. intros [-> | ->]; [reflexivity |].
  induction (zones a) as [| z l IH]; [reflexivity | exact IH].
Qed.

Lemma calculateTubeFare_tier (a b : Station) :
  zones a <> [] -> zones b <> [] -> In (calculateTubeFare a b) tierValues.
Proof.
  intros Ha Hb.
  destruct (Math_min_least _ (possibleFares_tier a b)
                           (possibleFares_nonempty _ _ Ha Hb)) as (Hin & _).
  pose proof (possibleFares_tier a b) as Hall.
  rewrite Forall_forall in Hall. apply Hall, Hin.
Qed.

(** X1: [calculateTubeFare] returns [+Infinity], the value of [Math.min]
    without arguments, exactly when one of the two stations has no zone. *)
Theorem calculateTubeFare_infinity_iff (a b : Station) :
  calculateTubeFare a b = infinity <-> zones a = [] \/ zones b = [].
Proof.
  split.
  - intro H.
    destruct (zones a) as [| x l] eqn:Ea; [now left |].
    destruct (zones b) as [| y m] eqn:Eb; [now right |].
    exfalso. apply (tier_not_infinity (calculateTubeFare a b)); [| exact H].
    apply calculateTubeFare_tier; congruence.
  - intro H. unfold calculateTubeFare.
    rewrite (possibleFares_empty _ _ H). reflexivity.
Qed.

(** X2: between two stations that each have a zone, the fare is one of the
    five tier values of the fare table, hence at least the cheapest tier
    (2.00) and at most the maximum fare (3.20). *)
Theorem calculateTubeFare_is_tier (a b : Station) :
  zones a <> [] -> zones b <> [] ->
  In (calculateTubeFare a b) tierValues
  /\ (oneZoneOutsideZone1 (tube fares) <=? calculateTubeFare a b)%float = true
  /\ (calculateTubeFare a b <=? max fares)%float = true.
Proof.
  intros Ha Hb. pose proof (calculateTubeFare_tier a b Ha Hb) as H.
  repeat split; [exact H | now apply tier_ge_cheapest | now apply tier_le_max].
Qed.

Lemma calculateTubeFare_is_tier_witness :
  In (calculateTubeFare earlsCourt wimbledon) tierValues
  /\ (oneZoneOutsideZone1 (tube fares)
      <=? calculateTubeFare earlsCourt wimbledon)%float = true
  /\ (calculateTubeFare earlsCourt wimbledon <=? max fares)%float = true.
Proof.
  apply (calculateTubeFare_is_tier earlsCourt wimbledon); simpl; discriminate.
Defined.

Lemma possibleFares_incl (a b a' b' : Station) :
  incl (zones a) (zones a') -> incl (zones b) (zones b') ->
  incl (possibleFares a b) (possibleFares a' b').
Proof.
  intros Ha Hb x Hx. apply possibleFares_In in Hx.
  destruct Hx as (fromZone & toZone & Hf & Ht & ->).
  apply possibleFares_In. exists fromZone, toZone. auto.
Qed.

(** X3: the fare only depends on which zones each station is in: the
    station names, the order of the zone lists and repeated zones do not
    matter. *)
Theorem calculateTubeFare_same_zones (a b a' b' : Station) :
  incl (zones a) (zones a') -> incl (zones a') (zones a) ->
  incl (zones b) (zones b') -> incl (zones b') (zones b) ->
  calculateTubeFare a b = calculateTubeFare a' b'.
Proof.
  intros Ha Ha' Hb Hb'. unfold calculateTubeFare.
  apply Math_min_same_elements.
  - apply possibleFares_tier.
  - now apply possibleFares_incl.
  - now apply possibleFares_incl.
Qed.

Lemma calculateTubeFare_same_zones_witness :
  calculateTubeFare earlsCourt wimbledon
  = calculateTubeFare earlsCourtReordered wimbledon.
Proof.
  apply (calculateTubeFare_same_zones earlsCourt wimbledon
           earlsCourtReordered wimbledon);
    intros z Hz; simpl in *; tauto.
Defined.

(** X4: putting a station in more zones never raises a fare: when each
    station of a pair has a zone, and a second pair of stations is in all
    those zones and possibly more, the fare of the second pair is at most
    the fare of the first. *)
Theorem calculateTubeFare_more_zones_cheaper (a b a' b' : Station) :
  zones a <> [] -> zones b <> [] ->
  incl (zones a) (zones a') -> incl (zones b) (zones b') ->
  (calculateTubeFare a' b' <=? calculateTubeFare a b)%float = true.
Proof.
  intros Ha Hb Hia Hib.
  destruct (Math_min_least _ (possibleFares_tier a b)
                           (possibleFares_nonempty _ _ Ha Hb)) as (Hin & _).
  assert (Hne : possibleFares a' b' <> []).
  { intro E. apply (possibleFares_incl a b a' b' Hia Hib) in Hin.
    rewrite E in Hin. destruct Hin. }
  destruct (Math_min_least _ (possibleFares_tier a' b') Hne) as (_ & Hmin).
  apply Hmin. now apply (possibleFares_incl a b a' b').
Qed.

Lemma calculateTubeFare_more_zones_cheaper_witness :
  (calculateTubeFare earlsCourt wimbledon
   <=? calculateTubeFare holburn wimbledon)%float = true.
Proof.
  apply (calculateTubeFare_more_zones_cheaper holburn wimbledon
           earlsCourt wimbledon).
  - simpl; discriminate.
  - simpl; discriminate.
  - intros z Hz; simpl in *; tauto.
  - intros z Hz; exact Hz.
Defined.

(** The five ways the loop body can go, by the two zones. *)
Lemma zonePairFare_cases (x y : Z) :
  (x = y /\ x = 1%Z /\ zonePairFare x y = zone1Only (tube fares))
  \/ (x = y /\ x <> 1%Z /\ zonePairFare x y = oneZoneOutsideZone1 (tube fares))
  \/ (Z.abs (x - y) = 1%Z /\ (x = 1%Z \/ y = 1%Z)
      /\ zonePairFare x y = twoZonesIncludingZone1 (tube fares))
  \/ (Z.abs (x - y) = 1%Z /\ x <> 1%Z /\ y <> 1%Z
      /\ zonePairFare x y = twoZonesExcludingZone1 (tube fares))
  \/ ((2 <= Z.abs (x - y))%Z /\ zonePairFare x y = threeZones (tube fares)).
Proof.
  unfold zonePairFare.
  destruct (Z.eqb_spec x 1) as [Hx | Hx]; destruct (Z.eqb_spec y 1) as [Hy | Hy];
    cbn [orb];
    destruct (Z.abs (x - y) + 1)%Z as [| p | p] eqn:E; try lia;
    try (destruct p as [[?|?|]|[?|?|]|]);
    first
      [ left; repeat split; first [reflexivity | lia]
      | right; left; repeat split; first [reflexivity | lia]
      | right; right; left; repeat split;
        first [reflexivity | lia | left; lia | right; lia]
      | right; right; right; left; repeat split; first [reflexivity | lia]
      | right; right; right; right; repeat split; first [reflexivity | lia] ].
Qed.

Lemma zonePairFare_cheapest_iff (x y : Z) :
  zonePairFare x y = oneZoneOutsideZone1 (tube fares) <-> x = y /\ x <> 1%Z.
Proof.
  destruct (zonePairFare_cases x y)
    as [(H1 & H2 & E) | [(H1 & H2 & E) | [(H1 & H2 & E) | [(H1 & H2 & H3 & E) | (H1 & E)]]]];
    rewrite E; split; try (intro H; float_discr H); try (intros [? ?]; lia);
    auto.
Qed.

Lemma zonePairFare_dearest_iff (x y : Z) :
  zonePairFare x y = threeZones (tube fares) <-> (2 <= Z.abs (x - y))%Z.
Proof.
  destruct (zonePairFare_cases x y)
    as [(H1 & H2 & E) | [(H1 & H2 & E) | [(H1 & H2 & E) | [(H1 & H2 & H3 & E) | (H1 & E)]]]];
    rewrite E; split; try (intro H; float_discr H); try (intro; lia); auto.
Qed.

Lemma tier_le_cheapest (x : float) :
  In x tierValues ->
  (x <=? oneZoneOutsideZone1 (tube fares))%float = true ->
  x = oneZoneOutsideZone1 (tube fares).
Proof. intro H; in_cases H; vm_compute; intros; congruence. Qed.

Lemma tier_ge_dearest (x : float) :
  In x tierValues ->
  (threeZones (tube fares) <=? x)%float = true ->
  x = threeZones (tube fares).
Proof. intro H; in_cases H; vm_compute; intros; congruence. Qed.

(** X5: the fare is the cheapest tier, 2.00, exactly when the two stations
    share a zone other than zone 1. *)
Theorem calculateTubeFare_cheapest_iff (a b : Station) :
  calculateTubeFare a b = oneZoneOutsideZone1 (tube fares)
  <-> exists z, z <> 1%Z /\ In z (zones a) /\ In z (zones b).
Proof.
  split.
  - intro H.
    assert (Hne : zones a <> [] /\ zones b <> []).
    { split; intro E;
        assert (Hinf : calculateTubeFare a b = infinity)
          by (apply calculateTubeFare_infinity_iff; auto);
        rewrite Hinf in H; float_discr H. }
    destruct Hne as [Ha Hb].
    destruct (Math_min_least _ (possibleFares_tier a b)
                             (possibleFares_nonempty _ _ Ha Hb)) as (Hin & _).
    fold (calculateTubeFare a b) in Hin. rewrite H in Hin.
    apply possibleFares_In in Hin.
    destruct Hin as (x & y & Hx & Hy & E). symmetry in E.
    apply zonePairFare_cheapest_iff in E. destruct E as [<- Hx1].
    exists x. auto.
  - intros (z & Hz & Ha & Hb).
    assert (Hin : In (oneZoneOutsideZone1 (tube fares)) (possibleFares a b)).
    { apply possibleFares_In. exists z, z. repeat split; auto.
      symmetry. now apply zonePairFare_cheapest_iff. }
    assert (Hne : possibleFares a b <> []) by (intro E; rewrite E in Hin; destruct Hin).
    destruct (Math_min_least _ (possibleFares_tier a b) Hne) as (Hmem & Hmin).
    fold (calculateTubeFare a b) in Hmem, Hmin.
    apply tier_le_cheapest; [| now apply Hmin].
    pose proof (possibleFares_tier a b) as Hall.
    rewrite Forall_forall in Hall. now apply Hall.
Qed.

(** X6: between two stations that each have a zone, the fare is the dearest
    tier, 3.20, so that the tap-out gives nothing back, exactly when every
    zone of the one is at least two zones away from every zone of the
    other. *)
Theorem calculateTubeFare_dearest_iff (a b : Station) :
  zones a <> [] -> zones b <> [] ->
  (calculateTubeFare a b = threeZones (tube fares)
   <-> forall x y, In x (zones a) -> In y (zones b) -> (2 <= Z.abs (x - y))%Z).
Proof.
  intros Ha Hb.
  destruct (Math_min_least _ (possibleFares_tier a b)
                           (possibleFares_nonempty _ _ Ha Hb)) as (Hin & Hmin).
  fold (calculateTubeFare a b) in Hin, Hmin.
  split.
  - intros H x y Hx Hy. apply zonePairFare_dearest_iff.
    apply tier_ge_dearest; [apply zonePairFare_tier |].
    rewrite <- H. apply Hmin, possibleFares_In. eauto.
  - intro H. apply possibleFares_In in Hin.
    destruct Hin as (x & y & Hx & Hy & E). rewrite E.
    apply zonePairFare_dearest_iff. now apply H.
Qed.

Lemma calculateTubeFare_dearest_iff_witness :
  calculateTubeFare holburn wimbledon = threeZones (tube fares)
  <-> forall x y, In x (zones holburn) -> In y (zones wimbledon) ->
                  (2 <= Z.abs (x - y))%Z.
Proof.
  apply (calculateTubeFare_dearest_iff holburn wimbledon); simpl; discriminate.
Defined.

(* ================================================================== *)
(** * Further properties of the card session *)

(** ** The station directory *)

(** X7: looking a station up by name is sound and complete: a station that
    is found bears the requested name and is an entry of the directory;
    every entry is found under its own name, names being unique; and every
    entry is in at least one zone, all its zones being 1, 2 or 3. *)
Theorem findStation_directory :
  (forall stationName station,
      findStation stationName = Some station ->
      In station stations /\ name station = stationName)
  /\ (forall station, In station stations ->
                      findStation (name station) = Some station)
  /\ NoDup (map name stations)
  /\ (forall station, In station stations ->
                      zones station <> []
                      /\ Forall (fun z => (1 <= z <= 3)%Z) (zones station)).
Proof.
  repeat split.
  - unfold findStation in H. now apply find_some in H.
  - unfold findStation in H. apply find_some in H.
    now apply String.eqb_eq.
  - intros station H. in_cases H; reflexivity.
  - repeat constructor; simpl; intuition discriminate.
  - in_cases H; discriminate.
  - in_cases H; repeat constructor; lia.
Qed.

(** ** Completions of single calls *)

Lemma tapIn_bus_outcome (stationName : string) (this : OysterCard) :
  match tapIn stationName BUS this with
  | (Normal _, this') => currentJourney this' = currentJourney this
  | (Throw _, this') => this' = this
  end.
Proof.
  unfold tapIn. destruct (findStation stationName); [| reflexivity].
  destruct (balance this <? bus fares)%float eqn:E.
  - rewrite (deductFare_insufficient _ _ E). reflexivity.
  - rewrite (deductFare_sufficient _ _ E). reflexivity.
Qed.

(** X8: a call that throws has written nothing: whatever the call, its
    arguments and the card, when [load], [tapIn] or [tapOut] throws, the
    card is exactly as it was before the call; and [load] never throws. *)
Theorem throw_leaves_card_unchanged (c : Call) (this : OysterCard) :
  match perform c this with
  | (Throw _, this') => this' = this
  | (Normal _, _) => True
  end
  /\ (forall amount, fst (load amount this) = Normal tt).
Proof.
  split; [| reflexivity].
  destruct c as [amount | stationName [|] | stationName]; cbn [perform].
  - rewrite load_eq. exact I.
  - pose proof (tapIn_bus_outcome stationName this) as H.
    destruct (tapIn stationName BUS this) as [[[] | e] this']; auto.
  - pose proof (tapIn_tube_outcome stationName this) as H.
    destruct (tapIn stationName TUBE this) as [[[] | e] this']; auto.
  - pose proof (tapOut_outcome stationName this) as H.
    destruct (tapOut stationName this) as [[[] | e] this']; auto.
Qed.

(** X9: the only exceptions [tapIn] throws are the station-not-found error
    for the name it was given and the insufficient-balance error; [tapOut]
    throws nothing but the invalid-tap-out error, the station-not-found
    error for the name it was given and, when the origin recorded in the
    journey is not in the directory, the type error of reading the zones of
    [undefined]. *)
Theorem thrown_errors (stationName : string) (transport : TransportType)
        (this : OysterCard) :
  match fst (tapIn stationName transport this) with
  | Throw e => e = StationNotFound stationName \/ e = InsufficientBalance
  | Normal _ => True
  end
  /\ match fst (tapOut stationName this) with
     | Throw e =>
         e = InvalidTapOut \/ e = StationNotFound stationName
         \/ (e = TypeErrorUndefined
             /\ exists journey, currentJourney this = Some journey
                                /\ findStation (from journey) = None)
     | Normal _ => True
     end.
Proof.
  split.
  - unfold tapIn. destruct (findStation stationName); [| cbn; auto].
    destruct transport; unfold bind.
    + destruct (balance this <? bus fares)%float eqn:E;
        rewrite ?(deductFare_insufficient _ _ E), ?(deductFare_sufficient _ _ E);
        cbn; auto.
    + destruct (balance this <? max fares)%float eqn:E;
        rewrite ?(deductFare_insufficient _ _ E), ?(deductFare_sufficient _ _ E);
        cbn; auto.
  - unfold tapOut, bind, getCurrentJourney.
    destruct (currentJourney this) as [journey |]; [| cbn; auto].
    destruct (TransportType_eqb (type journey) TUBE); [| cbn; auto].
    cbn [negb].
    destruct (findStation stationName); [| cbn; auto].
    destruct (findStation (from journey)) eqn:Ef; cbn; eauto 8.
Qed.

(** X10: [tapIn] returns normally exactly when the station is in the
    directory and the balance is not below what a tap-in of that transport
    type debits; the journey the card holds plays no part. *)
Theorem tapIn_succeeds_iff (stationName : string) (type : TransportType)
        (this : OysterCard) :
  fst (tapIn stationName type this) = Normal tt
  <-> findStation stationName <> None
      /\ (balance this <? tapInDebit type)%float = false.
Proof.
  split.
  - intro H.
    destruct (findStation stationName) eqn:Ef.
    + split; [discriminate |].
      destruct (balance this <? tapInDebit type)%float eqn:E; [| reflexivity].
      rewrite tapIn_insufficient in H; [discriminate | congruence | exact E].
    + rewrite (tapIn_unknown _ _ _ Ef) in H. discriminate.
  - intros [Hk Hb]. destruct type; cbn [tapInDebit] in Hb.
    + now rewrite tapIn_bus_sufficient.
    + now rewrite tapIn_tube_sufficient.
Qed.

(** X11: a journey is closed once: right after a tap-out that returned
    normally, a second tap-out, at any station name, throws the
    invalid-tap-out error and leaves the card as the first one left it. *)
Theorem tapOut_twice_rejected
        (first second : string) (this afterFirst : OysterCard) :
  tapOut first this = (Normal tt, afterFirst) ->
  tapOut second afterFirst = (Throw InvalidTapOut, afterFirst).
Proof.
  intro H. pose proof (tapOut_outcome first this) as Hout.
  rewrite H in Hout. destruct Hout as [_ Hnone].
  apply tapOut_not_in_journey. unfold inTubeJourney. now rewrite Hnone.
Qed.

Lemma tapOut_twice_rejected_witness :
  tapOut "Wimbledon"
         {| balance := (26.8 + (max fares - calculateTubeFare holburn earlsCourt))%float;
            currentJourney := None |}
  = (Throw InvalidTapOut,
     {| balance := (26.8 + (max fares - calculateTubeFare holburn earlsCourt))%float;
        currentJourney := None |}).
Proof.
  apply (tapOut_twice_rejected "Earl's Court" "Wimbledon"
           {| balance := 26.8; currentJourney := Some (tubeJourneyFrom "Holburn") |}).
  reflexivity.
Defined.

(** ** Cards reached through the methods *)

Lemma journeyWellFormed_same (this this' : OysterCard) :
  currentJourney this' = currentJourney this ->
  journeyWellFormed this -> journeyWellFormed this'.
Proof. unfold journeyWellFormed. now intros ->. Qed.

Lemma perform_wellFormed (c : Call) (this : OysterCard) :
  journeyWellFormed this -> journeyWellFormed (snd (perform c this)).
Proof.
  intro Hwf. destruct c as [amount | stationName [|] | stationName];
    cbn [perform].
  - now apply (journeyWellFormed_same this).
  - apply (journeyWellFormed_same this); [apply tapIn_bus_journey | exact Hwf].
  - destruct (findStation stationName) eqn:Ef.
    + pose proof (tapIn_tube_outcome stationName this) as H.
      destruct (tapIn stationName TUBE this) as [[[] | e] this']; cbn [snd].
      * unfold journeyWellFormed. rewrite H. cbn [from tubeJourneyFrom].
        split; congruence.
      * now subst.
    + now rewrite (tapIn_unknown _ _ _ Ef).
  - pose proof (tapOut_outcome stationName this) as H.
    destruct (tapOut stationName this) as [[[] | e] this']; cbn [snd].
    + unfold journeyWellFormed. destruct H as [_ ->]. exact I.
    + now subst.
Qed.

Lemma runCalls_wellFormed (calls : list Call) :
  forall this, journeyWellFormed this ->
               journeyWellFormed (snd (runCalls calls this)).
Proof.
  induction calls as [| c rest IH]; intros this Hwf; [exact Hwf |].
  rewrite runCalls_cons. cbn [snd]. now apply IH, perform_wellFormed.
Qed.

Lemma reachable_wellFormed (initialBalance : float) (calls : list Call) :
  journeyWellFormed (snd (runCalls calls (newOysterCard initialBalance))).
Proof. apply runCalls_wellFormed. exact I. Qed.

(** What [tapOut] does on a card whose journey, if any, is well formed. *)
Lemma tapOut_wellFormed (stationName : string) (this : OysterCard) :
  journeyWellFormed this ->
  fst (tapOut stationName this) <> Throw TypeErrorUndefined
  /\ (fst (tapOut stationName this) = Normal tt
      <-> currentJourney this <> None /\ findStation stationName <> None).
Proof.
  unfold journeyWellFormed, tapOut, bind, getCurrentJourney.
  destruct (currentJourney this) as [journey |].
  - intros [Hj Hk]. rewrite Hj. cbn [type tubeJourneyFrom TransportType_eqb negb from].
    destruct (findStation stationName) as [arrival |].
    + destruct (findStation (from journey)) as [departure |]; [| congruence].
      cbn. split; [discriminate |]. split; [split; discriminate | reflexivity].
    + cbn. split; [discriminate |]. split; [discriminate | tauto].
  - intros _. cbn. split; [discriminate |]. split; [discriminate | tauto].
Qed.

(** X12: on every card built by [new OysterCard] and driven through any
    calls of [load], [tapIn] and [tapOut], whether they return or throw, the
    journey held, if any, is a tube journey without destination whose origin
    is a name of the directory; so [tapOut] never finds the departure
    station undefined, and the type error on reading its zones is never
    thrown. *)
Theorem reachable_journey_origin_known
        (initialBalance : float) (calls : list Call) (stationName : string) :
  journeyWellFormed (snd (runCalls calls (newOysterCard initialBalance)))
  /\ fst (tapOut stationName (snd (runCalls calls (newOysterCard initialBalance))))
     <> Throw TypeErrorUndefined.
Proof.
  pose proof (reachable_wellFormed initialBalance calls) as Hwf.
  split; [exact Hwf |]. now apply tapOut_wellFormed.
Qed.

(** X13: on every such card, [tapOut] returns normally exactly when the
    card holds a journey and the station it is given is in the directory. *)
Theorem reachable_tapOut_succeeds_iff
        (initialBalance : float) (calls : list Call) (stationName : string) :
  fst (tapOut stationName (snd (runCalls calls (newOysterCard initialBalance))))
  = Normal tt
  <-> currentJourney (snd (runCalls calls (newOysterCard initialBalance))) <> None
      /\ findStation stationName <> None.
Proof.
  apply tapOut_wellFormed, reachable_wellFormed.
Qed.

(** X14: a tube journey that is never tapped out is paid at the maximum
    fare: when a tube tap-in at a known station is followed by a second tube
    tap-in and then a tap-out, both at known stations and with enough
    balance for the two debits, all three calls return normally, the fare
    credited against is the one from the second station to the third, and
    the maximum fare debited by the first tap-in is not given back. *)
Theorem abandoned_journey_keeps_max_fare
        (this : OysterCard) (firstName secondName lastName : string)
        (second last : Station) :
  findStation firstName <> None ->
  findStation secondName = Some second ->
  findStation lastName = Some last ->
  (balance this <? max fares)%float = false ->
  (balance this - max fares <? max fares)%float = false ->
  runCalls [CallTapIn firstName TUBE; CallTapIn secondName TUBE;
            CallTapOut lastName] this
  = ([(CallTapIn firstName TUBE, Normal tt);
      (CallTapIn secondName TUBE, Normal tt);
      (CallTapOut lastName, Normal tt)],
     {| balance := (((balance this - max fares) - max fares)
                    + (max fares - calculateTubeFare second last))%float;
        currentJourney := None |}).
Proof.
  intros H1 H2 H3 Hb1 Hb2.
  rewrite !runCalls_cons. cbn [perform runCalls].
  rewrite (tapIn_tube_sufficient _ _ H1 Hb1). cbn [fst snd].
  rewrite tapIn_tube_sufficient; [| congruence | exact Hb2].
  cbn [fst snd balance currentJourney].
  rewrite (tapOut_known lastName
             {| balance := ((balance this - max fares) - max fares)%float;
                currentJourney := Some (tubeJourneyFrom secondName) |}
             (tubeJourneyFrom secondName) second last
             eq_refl eq_refl H2 H3).
  reflexivity.
Qed.

Lemma abandoned_journey_keeps_max_fare_witness :
  runCalls [CallTapIn "Holburn" TUBE; CallTapIn "Earl's Court" TUBE;
            CallTapOut "Wimbledon"] (newOysterCard 30)
  = ([(CallTapIn "Holburn" TUBE, Normal tt);
      (CallTapIn "Earl's Court" TUBE, Normal tt);
      (CallTapOut "Wimbledon", Normal tt)],
     {| balance := (((30 - max fares) - max fares)
                    + (max fares - calculateTubeFare earlsCourt wimbledon))%float;
        currentJourney := None |}).
Proof.
  apply (abandoned_journey_keeps_max_fare (newOysterCard 30)
           "Holburn" "Earl's Court" "Wimbledon" earlsCourt wimbledon).
  - vm_compute; discriminate.
  - reflexivity.
  - reflexivity.
  - reflexivity.
  - reflexivity.
Defined.
